(** * liushu-core: dictionary compilation and search engines

    A shallow embedding of [liushu-core/src/dict.rs], [engine.rs] and
    [config.rs].  Strings are [String.string] (a sequence of bytes, as a
    Rust [String] is a UTF-8 byte sequence); integer widths are [N] with
    their bounds written out where the code checks them. *)

From Stdlib Require Import String Ascii List Bool Arith Lia NArith Sorted Permutation.
Import ListNotations.
Open Scope list_scope.

(** ** Errors and results *)

(** [LiushuError], reduced to the sources of failure the core can meet. *)
Inductive LiushuError :=
| IoError        (* std::io::Error: a file cannot be opened or created *)
| CsvError       (* csv::Error: malformed record or field *)
| SqliteError    (* rusqlite::Error *)
| RedbError.     (* redb errors *)

(** Rust's [Result<T, LiushuError>]. *)
Inductive result (A : Type) :=
| Ok (a : A)
| Err (e : LiushuError).
Arguments Ok {A} a.
Arguments Err {A} e.

(** A call that may panic (index out of bounds, [unwrap] of [None]). *)
Inductive outcome (A : Type) :=
| Returns (a : A)
| Panics.
Arguments Returns {A} a.
Arguments Panics {A}.

(** ** [dict.rs]: [DictItem] *)

Record DictItem := mkDictItem {
  text : string;
  code : string;
  weight : N;               (* u32 *)
  comment : option string
}.

(** ** Reading a dictionary file

    The three compile paths read each file with
    [csv::ReaderBuilder::new().delimiter(b'\t').comment(Some(b'#'))] and
    [rdr.deserialize::<DictItem>()].  The reader keeps its default
    [has_headers(true)]: the first record names the columns and serde
    matches fields by name.  Lines starting with [#] and empty lines are
    skipped; records are split on the tab byte.  Quoting is not modelled:
    a quote character is kept in the field, where the csv reader would
    strip it, so the model is faithful on files whose fields hold none. *)

Definition tab : ascii := "009"%char.

Fixpoint split_on (sep : ascii) (s : string) : list string :=
  match s with
  | EmptyString => [EmptyString]
  | String c s' =>
      let rest := split_on sep s' in
      if Ascii.eqb c sep then EmptyString :: rest
      else match rest with
           | [] => [String c EmptyString]
           | f :: fs => String c f :: fs
           end
  end.

Definition is_comment_line (l : string) : bool :=
  match l with
  | String c _ => Ascii.eqb c "#"%char
  | EmptyString => false
  end.

Definition is_empty_line (l : string) : bool :=
  match l with EmptyString => true | _ => false end.

(** [<u32 as FromStr>::from_str]: an optional [+], then at least one
    decimal digit, and a value below [2^32]. *)
Definition digit_value (c : ascii) : option N :=
  let n := nat_of_ascii c in
  if (48 <=? n) && (n <=? 57) then Some (N.of_nat (n - 48)) else None.

Fixpoint parse_digits (acc : N) (s : string) : option N :=
  match s with
  | EmptyString => Some acc
  | String c s' =>
      match digit_value c with
      | Some d => parse_digits (acc * 10 + d)%N s'
      | None => None
      end
  end.

Definition parse_u32 (s : string) : option N :=
  let body := match s with
              | String c s' => if Ascii.eqb c "+"%char then s' else s
              | EmptyString => s
              end in
  match body with
  | EmptyString => None
  | _ => match parse_digits 0 body with
         | Some n => if (n <? 2 ^ 32)%N then Some n else None
         | None => None
         end
  end.

Fixpoint field (name : string) (hdr rec : list string) : option string :=
  match hdr, rec with
  | h :: hs, r :: rs => if String.eqb h name then Some r else field name hs rs
  | _, _ => None
  end.

(** serde's derived [Deserialize for DictItem] on one csv record: every
    record has the header's length ([flexible(false)]); a [String] field
    takes the field as it is, the [u32] field parses it, and the
    [Option<String>] field is [None] when the column is missing or empty. *)
Definition deserialize_item (hdr rec : list string) : result DictItem :=
  if negb (Nat.eqb (length rec) (length hdr)) then Err CsvError else
  match field "text" hdr rec, field "code" hdr rec, field "weight" hdr rec with
  | Some t, Some c, Some w =>
      match parse_u32 w with
      | Some n =>
          let cm := match field "comment" hdr rec with
                    | None | Some EmptyString => None
                    | Some s => Some s
                    end in
          Ok (mkDictItem t c n cm)
      | None => Err CsvError
      end
  | _, _, _ => Err CsvError
  end.

(** [rdr.deserialize()]: the records of the file, each deserialized. *)
Definition rdr_deserialize (lines : list string) : list (result DictItem) :=
  let records :=
    filter (fun l => negb (is_comment_line l) && negb (is_empty_line l)) lines in
  match records with
  | [] => []
  | h :: rs => map (fun r => deserialize_item (split_on tab h) (split_on tab r)) rs
  end.

(** A dictionary file named by a formula: missing, or its lines. *)
Inductive csv_file :=
| FileMissing
| FileLines (lines : list string).

(** The loop [for dict_path in ... { let mut rdr = ...from_path(dict_path)?;
    for result in rdr.deserialize() { let item = result?; body } }] shared by
    [compile], [compile2] and [build2], with [body] threading a state. *)
Section ForRows.
Variable S : Type.
Variable body : S -> DictItem -> result S.

Fixpoint for_rows (s : S) (rows : list (result DictItem)) : result S :=
    match rows with
    | [] => Ok s
    | Err e :: _ => Err e
    | Ok it :: rest =>
        match body s it with
        | Ok s' => for_rows s' rest
        | Err e => Err e
        end
    end.

Fixpoint for_files (s : S) (files : list csv_file) : result S :=
    match files with
    | [] => Ok s
    | FileMissing :: _ => Err IoError   (* from_path fails: the kind is not modelled *)
    | FileLines ls :: rest =>
        match for_rows s (rdr_deserialize ls) with
        | Ok s' => for_files s' rest
        | Err e => Err e
        end
    end.
End ForRows.
Arguments for_rows {S} body s rows.
Arguments for_files {S} body s files.

(** All the items of all the files, in order ([build2]'s first loop). *)
Definition read_all (files : list csv_file) : result (list DictItem) :=
  for_files (fun acc it => Ok (acc ++ [it])) [] files.

(** ** [engine.rs]: [EngineManager] *)

Module EngineManager.
Section Manager.
  (** The engines are trait objects; [run] is their [search]. *)
Variable Engine : Type.
Variable R : Type.
Variable run : Engine -> string -> R.

  (** [VecDeque::swap(i, j)]: asserts [i < len] and [j < len]. *)
Fixpoint list_set (l : list Engine) (i : nat) (x : Engine) : list Engine :=
    match l, i with
    | [], _ => []
    | _ :: l', O => x :: l'
    | y :: l', S i' => y :: list_set l' i' x
    end.

Definition vecdeque_swap (l : list Engine) (i j : nat) : outcome (list Engine) :=
    match nth_error l i, nth_error l j with
    | Some a, Some b => Returns (list_set (list_set l i b) j a)
    | _, _ => Panics
    end.

  (** [fn set_active_engine(&mut self, idx) { self.engines.swap(0, idx) }] *)
Definition set_active_engine (engines : list Engine) (idx : nat)
    : outcome (list Engine) :=
    vecdeque_swap engines 0 idx.

  (** [fn search(&self, code) { self.engines[0].search(code) }] *)
Definition search (engines : list Engine) (q : string) : outcome R :=
    match engines with
    | [] => Panics
    | e :: _ => Returns (run e q)
    end.
End Manager.
End EngineManager.

(** ** Containers *)

(** A string-keyed map ([StringPatriciaMap], [PatriciaMap]) as an
    association list with one entry per key.  The patricia trees iterate in
    byte order; no claim below depends on the order of the keys. *)
Section Assoc.
Variable V : Type.

Fixpoint map_get (k : string) (m : list (string * V)) : option V :=
    match m with
    | [] => None
    | (k', v) :: m' => if String.eqb k' k then Some v else map_get k m'
    end.

Fixpoint map_insert (k : string) (v : V) (m : list (string * V))
    : list (string * V) :=
    match m with
    | [] => [(k, v)]
    | (k', v') :: m' =>
        if String.eqb k' k then (k, v) :: m' else (k', v') :: map_insert k v m'
    end.
End Assoc.
Arguments map_get {V} k m.
Arguments map_insert {V} k v m.

(** [StringPatriciaSet]: a byte-ordered set of strings. *)
Fixpoint sorted_insert (t : string) (s : list string) : list string :=
  match s with
  | [] => [t]
  | x :: s' => if String.ltb t x then t :: s else x :: sorted_insert t s'
  end.

Definition set_insert (t : string) (s : list string) : list string :=
  if existsb (String.eqb t) s then s else sorted_insert t s.

(** [Itertools::unique]: the first occurrence of each element, in order. *)
Fixpoint unique_from (seen : list string) (l : list string) : list string :=
  match l with
  | [] => []
  | x :: xs =>
      if existsb (String.eqb x) seen then unique_from seen xs
      else x :: unique_from (x :: seen) xs
  end.

Definition unique (l : list string) : list string := unique_from [] l.

(** [v[i] = x] on a [Vec]: panics out of range. *)
Fixpoint set_nth {A} (l : list A) (i : nat) (x : A) : option (list A) :=
  match l, i with
  | [], _ => None
  | _ :: l', O => Some (x :: l')
  | y :: l', S i' => option_map (cons y) (set_nth l' i' x)
  end.

(** [str::starts_with]. *)
Fixpoint starts_with (p s : string) : bool :=
  match p, s with
  | EmptyString, _ => true
  | String a p', String b s' => Ascii.eqb a b && starts_with p' s'
  | String _ _, EmptyString => false
  end.

(** ** [config.rs]: [Formula::compile], the relational path (SQLite) *)

Record sql_row := mkRow {
  r_text : string;
  r_code : string;
  r_weight : N;
  r_comment : option string
}.

Definition row_of_item (it : DictItem) : sql_row :=
  mkRow (text it) (code it) (weight it) (comment it).

(** The database file: the rows of table [dict], or [None] when the file
    has no such table. *)
Definition sqlite_db := option (list sql_row).

(** What happens to a rusqlite [Transaction] when it is dropped;
    [Transaction::new] sets [DropBehavior::Rollback]. *)
Inductive DropBehavior := Rollback | Commit.

Definition finish_tx (b : DropBehavior) (db pending : sqlite_db) : sqlite_db :=
  match b with Rollback => db | Commit => pending end.

(** [tx.execute("INSERT INTO dict ...", params![...])]: appends a row to the
    transaction's view of the table, or fails when there is no table. *)
Definition insert_row (pending : sqlite_db) (it : DictItem) : result sqlite_db :=
  match pending with
  | None => Err SqliteError
  | Some rows => Ok (Some (rows ++ [row_of_item it]))
  end.

(** [Formula::compile]: [let tx = conn.transaction()?;] the loops with
    [?], then [Ok(())].  No [tx.commit()] is called: on every path [tx] is
    dropped with its default behaviour. *)
Definition compile (dictionaries : list csv_file) (db : sqlite_db)
  : result unit * sqlite_db :=
  match for_files insert_row db dictionaries with
  | Ok pending => (Ok tt, finish_tx Rollback db pending)
  | Err e => (Err e, finish_tx Rollback db db)
  end.

(** ** [engine.rs]: [ShapeCodeEngine::search]

    [SELECT * FROM (SELECT * FROM dict WHERE code LIKE ?1) GROUP BY text
    ORDER BY weight DESC] with [?1 = code + "%"]. *)

(** SQLite's [LIKE] without [ESCAPE]: [%] matches any sequence, [_] one
    UTF-8 character, and other characters compare equal up to ASCII case. *)
Definition lower_ascii (c : ascii) : ascii :=
  let n := nat_of_ascii c in
  if (65 <=? n) && (n <=? 90) then ascii_of_nat (n + 32) else c.

Definition is_cont_byte (c : ascii) : bool :=
  let n := nat_of_ascii c in (128 <=? n) && (n <? 192).

Fixpoint skip_cont (s : string) : string :=
  match s with
  | String c s' => if is_cont_byte c then skip_cont s' else s
  | EmptyString => s
  end.

Fixpoint like_match (p s : string) : bool :=
  match p with
  | EmptyString => match s with EmptyString => true | _ => false end
  | String c p' =>
      if Ascii.eqb c "%"%char then
        (fix star (s : string) : bool :=
           like_match p' s ||
           match s with EmptyString => false | String _ s' => star s' end) s
      else
        match s with
        | EmptyString => false
        | String d s' =>
            if Ascii.eqb c "_"%char then like_match p' (skip_cont s')
            else Ascii.eqb (lower_ascii c) (lower_ascii d) && like_match p' s'
        end
  end.

Record SearchResultItem := mkResult {
  it_text : string;
  it_code : string;
  it_weight : N;
  it_comment : option string
}.

Definition item_of_row (r : sql_row) : SearchResultItem :=
  mkResult (r_text r) (r_code r) (r_weight r) (r_comment r).

(** [GROUP BY text] with bare columns: one row per distinct text, chosen by
    SQLite among the rows of the group; [rep r rs] is that choice for the
    group [r :: rs]. *)
Definition group_by_text (rep : sql_row -> list sql_row -> sql_row)
    (rows : list sql_row) : list sql_row :=
  flat_map (fun t =>
              match filter (fun r => String.eqb (r_text r) t) rows with
              | [] => []
              | r :: rs => [rep r rs]
              end)
           (unique (map r_text rows)).

(** [ORDER BY weight DESC]. *)
Fixpoint insert_desc (x : SearchResultItem) (l : list SearchResultItem)
  : list SearchResultItem :=
  match l with
  | [] => [x]
  | y :: l' => if (it_weight y <? it_weight x)%N then x :: l else y :: insert_desc x l'
  end.

Fixpoint sort_desc (l : list SearchResultItem) : list SearchResultItem :=
  match l with
  | [] => []
  | x :: l' => insert_desc x (sort_desc l')
  end.

Definition shape_search (rep : sql_row -> list sql_row -> sql_row)
    (db : sqlite_db) (q : string) : result (list SearchResultItem) :=
  match db with
  | None => Err SqliteError
  | Some rows =>
      let pat := String.append q "%" in
      Ok (sort_desc (map item_of_row
            (group_by_text rep (filter (fun r => like_match pat (r_code r)) rows))))
  end.

(** The row SQLite keeps for the bare columns of a group of the query
    above, as observed on its running engine: the first row of the group. *)
Definition sqlite_first_row (r : sql_row) (rs : list sql_row) : sql_row := r.

(** ** [engine.rs]: [EngineWithRedb::search] *)

(** [dictionary.get(text)] on the opened [DICTIONARY] table:
    [Result<Option<(u32, Option<&str>)>, StorageError>]. *)
Definition def_table_get := string -> result (option (N * option string)).

Record EngineWithRedb := mkRedbEngine {
  (** the table opened by [begin_read()?] and [open_table(DICTIONARY)?];
      [None] when either fails *)
  redb_table : option def_table_get;
  redb_trie : list (string * list string)   (* PatriciaMap<Vec<String>> *)
}.

Fixpoint filter_map {A B} (f : A -> option B) (l : list A) : list B :=
  match l with
  | [] => []
  | x :: l' => match f x with Some y => y :: filter_map f l' | None => filter_map f l' end
  end.

(** [|v| v.ok().flatten()] *)
Definition ok_flatten {A} (v : result (option A)) : option A :=
  match v with Ok o => o | Err _ => None end.

(** [trie.iter_prefix(code.as_bytes())]: the entries whose key starts with
    the query. *)
Definition iter_prefix (q : string) (trie : list (string * list string))
  : list (string * list string) :=
  filter (fun kv => starts_with q (fst kv)) trie.

(** The closure of [flat_map]: one lookup per text of the entry. *)
Definition lookup_entry (get : def_table_get) (kv : string * list string)
  : list (result (option SearchResultItem)) :=
  let '(key, value) := kv in
  map (fun t =>
         match get t with
         | Ok o => Ok (option_map (fun '(w, c) => mkResult t key w c) o)
         | Err e => Err e
         end) value.

Definition redb_search (e : EngineWithRedb) (q : string)
  : result (list SearchResultItem) :=
  match redb_table e with
  | None => Err RedbError
  | Some get =>
      Ok (filter_map ok_flatten (flat_map (lookup_entry get) (iter_prefix q (redb_trie e))))
  end.

(** ** [config.rs]: [Formula::compile2], the trie/KV path *)

(** The state threaded through the loop: the write transaction's view of
    the [DICTIONARY] table and the in-memory trie. *)
Record compile2_state := mkC2 {
  c2_table : list (string * (N * option string));
  c2_trie : list (string * list string)
}.

(** The loop body: [dict_table.insert(text, (weight, comment))?], then
    [if trie.get(&code).is_none() { insert vec![text] } else { push text }]. *)
Definition compile2_update (st : compile2_state) (it : DictItem) : compile2_state :=
  let table := map_insert (text it) (weight it, comment it) (c2_table st) in
  let trie :=
    match map_get (code it) (c2_trie st) with
    | None => map_insert (code it) [text it] (c2_trie st)
    | Some entry => map_insert (code it) (entry ++ [text it]) (c2_trie st)
    end in
  mkC2 table trie.

Definition compile2_row (st : compile2_state) (it : DictItem) : result compile2_state :=
  Ok (compile2_update st it).

(** The files [compile2] leaves behind: the committed [<id>.redb] table and
    the [<id>.trie] file. *)
Record redb_store := mkStore {
  store_table : list (string * (N * option string));
  store_trie_file : option (list (string * list string))
}.

(** [Formula::compile2]: an error in the loop drops the write transaction
    (redb aborts it) before the trie is written; otherwise [tx.commit()?]
    and the trie is serialized to [<id>.trie]. *)
Definition compile2 (dictionaries : list csv_file) (st : redb_store)
  : result unit * redb_store :=
  match for_files compile2_row (mkC2 (store_table st) []) dictionaries with
  | Ok c2 => (Ok tt, mkStore (c2_table c2) (Some (c2_trie c2)))
  | Err e => (Err e, st)
  end.

(** ** [dict.rs]: [build2], the perfect-hash path *)

(** [Mphf::new(1.7, &keys)] of the boomphf crate is given by its contract:
    on a list of distinct keys, [hash] maps the keys one-to-one into
    [0 .. keys.len()). *)
Definition mphf_contract (mphf_new : list string -> string -> nat) : Prop :=
  forall keys, NoDup keys ->
    (forall k, In k keys -> mphf_new keys k < length keys) /\
    (forall k1 k2, In k1 keys -> In k2 keys ->
       mphf_new keys k1 = mphf_new keys k2 -> k1 = k2).

Record build2_state := mkB2 {
  b2_trie : list (string * list string);   (* StringPatriciaMap<StringPatriciaSet> *)
  b2_def : list (N * option string);       (* def_table *)
  b2_visited : list string;                (* visited: HashSet<String> *)
  b2_writes : list nat   (* the indices written in def_table, latest first *)
}.

(** One iteration of [for item in items]. *)
Definition build2_step (hash : string -> nat) (st : build2_state) (it : DictItem)
  : outcome build2_state :=
  let trie :=
    match map_get (code it) (b2_trie st) with
    | Some entry => map_insert (code it) (set_insert (text it) entry) (b2_trie st)
    | None => map_insert (code it) [text it] (b2_trie st)
    end in
  if existsb (String.eqb (text it)) (b2_visited st) then
    Returns (mkB2 trie (b2_def st) (b2_visited st) (b2_writes st))
  else
    let index := hash (text it) in
    match set_nth (b2_def st) index (weight it, comment it) with
    | Some def => Returns (mkB2 trie def (text it :: b2_visited st) (index :: b2_writes st))
    | None => Panics
    end.

Fixpoint build2_loop (hash : string -> nat) (st : build2_state) (items : list DictItem)
  : outcome build2_state :=
  match items with
  | [] => Returns st
  | it :: rest =>
      match build2_step hash st it with
      | Returns st' => build2_loop hash st' rest
      | Panics => Panics
      end
  end.

Definition build2_init (uniq_words : list string) : build2_state :=
  mkB2 [] (repeat (0%N, None) (length uniq_words)) [] [].

(** [build2] after the items are read: [uniq_words_vec], [phf], [def_table]
    and the loop. *)
Definition build2_items (mphf_new : list string -> string -> nat)
    (items : list DictItem) : outcome build2_state :=
  let uniq_words := unique (map text items) in
  build2_loop (mphf_new uniq_words) (build2_init uniq_words) items.

Definition build2 (mphf_new : list string -> string -> nat) (inputs : list csv_file)
  : outcome (result build2_state) :=
  match read_all inputs with
  | Err e => Returns (Err e)
  | Ok items =>
      match build2_items mphf_new items with
      | Returns st => Returns (Ok st)
      | Panics => Panics
      end
  end.

(** The perfect hash of [build2] on the items. *)
Definition build2_hash (mphf_new : list string -> string -> nat)
    (items : list DictItem) : string -> nat :=
  mphf_new (unique (map text items)).

(** The first item with a given text, in input order. *)
Definition first_with_text (t : string) (items : list DictItem) : option DictItem :=
  find (fun it => String.eqb (text it) t) items.

(** The last item with a given text, in input order. *)
Definition last_with_text (t : string) (items : list DictItem) : option DictItem :=
  find (fun it => String.eqb (text it) t) (rev items).

(** A concrete hash satisfying [mphf_contract]: the position in the key
    list. *)
Fixpoint index_of (keys : list string) (k : string) : nat :=
  match keys with
  | [] => 0
  | x :: xs => if String.eqb x k then 0 else S (index_of xs k)
  end.



(** The texts of the items with a given code, in input order, as a trie
    entry: [None] when no item has that code. *)
Definition texts_for_code (c : string) (items : list DictItem) : option (list string) :=
  match filter (fun it => String.eqb (code it) c) items with
  | [] => None
  | l => Some (map text l)
  end.

(** ** [dict.rs]: [build], the trie of whole items *)

(** The loop body of [build]: [if trie.get(&code).is_none() { insert
    vec![item] } else { push item }]. *)
Definition build_update (trie : list (string * list DictItem)) (it : DictItem)
  : list (string * list DictItem) :=
  match map_get (code it) trie with
  | None => map_insert (code it) [it] trie
  | Some entry => map_insert (code it) (entry ++ [it]) trie
  end.

(** [build(inputs, output)]: the trie serialized to [output]. *)
Definition build (inputs : list csv_file) : result (list (string * list DictItem)) :=
  for_files (fun trie it => Ok (build_update trie it)) [] inputs.

(** The items with a given code, in input order: [None] when there are none. *)
Definition items_for_code (c : string) (items : list DictItem) : option (list DictItem) :=
  match filter (fun it => String.eqb (code it) c) items with
  | [] => None
  | l => Some l
  end.


(** Decimal notation of a weight, as written in a dictionary file. *)
Definition digit_char (d : N) : ascii := ascii_of_nat (48 + N.to_nat d).

Fixpoint decimal_aux (fuel : nat) (n : N) (acc : string) : string :=
  match fuel with
  | O => acc
  | S f =>
      let acc' := String (digit_char (n mod 10)) acc in
      if (n <? 10)%N then acc' else decimal_aux f (n / 10)%N acc'
  end.

Definition decimal (n : N) : string := decimal_aux 10 n EmptyString.

(** Whether a field can be written on a dictionary line as it is: no tab,
    no quote and no line break. *)
Definition plain_field (s : string) : bool :=
  negb (existsb (fun c => Ascii.eqb c tab || Ascii.eqb c "034"%char ||
                          Ascii.eqb c "010"%char || Ascii.eqb c "013"%char)
                (list_ascii_of_string s)).

Arguments EngineManager.list_set {Engine} l i x.
Arguments EngineManager.vecdeque_swap {Engine} l i j.
Arguments EngineManager.set_active_engine {Engine} engines idx.
Arguments EngineManager.search {Engine R} run engines q.

(** A line of tab-separated fields. *)
Definition tab_line (fields : list string) : string :=
  String.concat (String tab EmptyString) fields.

(** The header every dictionary file of the project begins with. *)
Definition dict_header : string := tab_line ["text"; "code"; "weight"; "comment"]%string.

(** The line an item is written as: its fields separated by tabs, the
    weight in decimal and a missing comment as an empty field. *)
Definition item_line (it : DictItem) : string :=
  tab_line [text it; code it; decimal (weight it);
            match comment it with Some c => c | None => EmptyString end].

(** A dictionary file with a header and one row [x, ab, 3]. *)
Definition one_row_file : csv_file :=
  FileLines ["# sample"%string; tab_line ["text"; "code"; "weight"; "comment"]%string;
             tab_line ["x"; "ab"; "3"; ""]%string].

(** Two files: the text [x] has a row in each, and the code [ab] has the
    rows [x], [y], [x]. *)
Definition two_files : list csv_file :=
  [FileLines [tab_line ["text"; "code"; "weight"]%string;
              tab_line ["x"; "ab"; "3"]%string;
              tab_line ["y"; "ab"; "4"]%string];
   FileLines [tab_line ["text"; "code"; "weight"; "comment"]%string;
              tab_line ["x"; "ab"; "5"; "late"]%string]].

Definition two_files_items : list DictItem :=
  [mkDictItem "x" "ab" 3 None; mkDictItem "y" "ab" 4 None;
   mkDictItem "x" "ab" 5 (Some "late"%string)].

(** * Properties *)

(** ** EngineManager *)

Module EngineManagerFacts.
Import EngineManager.

Lemma nth_error_list_set {E} (l : list E) i x j :
  nth_error (list_set l i x) j =
  if Nat.eqb i j then (if i <? length l then Some x else None) else nth_error l j.
Proof.
  revert i j; induction l as [|y l IH]; intros i j.
  - destruct i, j; simpl; try reflexivity; destruct (Nat.eqb _ _); reflexivity.
  - destruct i, j; simpl; try reflexivity.
    + rewrite IH. reflexivity.
Qed.

Lemma length_list_set {E} (l : list E) i x : length (list_set l i x) = length l.
Proof.
  revert i; induction l as [|y l IH]; intros [|i]; simpl; auto.
Qed.

Lemma set_active_engine_some {E} (es : list E) k e0 ek :
  nth_error es 0 = Some e0 -> nth_error es k = Some ek ->
  set_active_engine es k = Returns (list_set (list_set es 0 ek) k e0).
Proof.
  intros H0 Hk. unfold set_active_engine, vecdeque_swap. rewrite H0, Hk. reflexivity.
Qed.

Lemma nth_error_lt {E} (es : list E) k :
  k < length es -> exists e, nth_error es k = Some e.
Proof.
  intro H. destruct (nth_error es k) eqn:E'; [eauto|].
  apply nth_error_None in E'. lia.
Qed.
End EngineManagerFacts.

Module EngineManagerClaims.
Import EngineManager EngineManagerFacts.

(** C5: [search] delegates to the engine at position 0; for an index [k]
    of the deque, [set_active_engine k] exchanges positions 0 and [k],
    leaves every other position as it was, and a second
    [set_active_engine k] gives back the original deque, so [search]
    delegates to the original engine at position 0 again. *)
Theorem set_active_engine_twice {E R} (run : E -> string -> R)
    (es : list E) (k : nat) (Hk : k < length es) :
  exists e0 ek es',
    nth_error es 0 = Some e0 /\ nth_error es k = Some ek /\
    (forall q, search run es q = Returns (run e0 q)) /\
    set_active_engine es k = Returns es' /\
    nth_error es' 0 = Some ek /\ nth_error es' k = Some e0 /\
    (forall i, i <> 0 -> i <> k -> nth_error es' i = nth_error es i) /\
    (forall q, search run es' q = Returns (run ek q)) /\
    set_active_engine es' k = Returns es /\
    (forall q, search run es q = Returns (run e0 q)).
Proof.
  destruct (nth_error_lt es 0 ltac:(lia)) as [e0 H0].
  destruct (nth_error_lt es k Hk) as [ek Hek].
  set (es' := list_set (list_set es 0 ek) k e0).
  assert (Hlen : length es' = length es)
    by (unfold es'; rewrite !length_list_set; reflexivity).
  assert (Hnth : forall j, nth_error es' j =
            if Nat.eqb k j then Some e0
            else if Nat.eqb 0 j then Some ek else nth_error es j).
  { intro j. unfold es'. rewrite nth_error_list_set, length_list_set.
    rewrite (proj2 (Nat.ltb_lt k (length es)) Hk).
    destruct (Nat.eqb k j); [reflexivity|].
    rewrite nth_error_list_set.
    destruct (Nat.eqb 0 j) eqn:E0; [|reflexivity].
    destruct es; simpl in *; [discriminate|reflexivity]. }
  assert (Hsearch : forall l (e : E) q,
            nth_error l 0 = Some e -> search run l q = Returns (run e q)).
  { intros [|x l] e q He; simpl in He; [discriminate|]. inversion He; reflexivity. }
  exists e0, ek, es'.
  split; [exact H0|]. split; [exact Hek|].
  split; [intro q; apply Hsearch; exact H0|].
  split; [apply set_active_engine_some; assumption|].
  assert (He'0 : nth_error es' 0 = Some ek).
  { rewrite Hnth. destruct (Nat.eqb k 0) eqn:Ek; [|reflexivity].
    apply Nat.eqb_eq in Ek; subst k. congruence. }
  assert (He'k : nth_error es' k = Some e0) by (rewrite Hnth, Nat.eqb_refl; reflexivity).
  split; [exact He'0|]. split; [exact He'k|].
  split.
  { intros i Hi0 Hik. rewrite Hnth.
    rewrite (proj2 (Nat.eqb_neq k i) (fun h => Hik (eq_sym h))).
    rewrite (proj2 (Nat.eqb_neq 0 i) (fun h => Hi0 (eq_sym h))). reflexivity. }
  split; [intro q; apply Hsearch; exact He'0|].
  split.
  { rewrite (set_active_engine_some es' k ek e0 He'0 He'k). f_equal.
    apply nth_error_ext. intro j.
    rewrite nth_error_list_set, length_list_set, Hlen.
    rewrite (proj2 (Nat.ltb_lt k (length es)) Hk).
    destruct (Nat.eqb k j) eqn:Ekj.
    { apply Nat.eqb_eq in Ekj; subst j. congruence. }
    rewrite nth_error_list_set, Hlen.
    destruct (Nat.eqb 0 j) eqn:E0j.
    { apply Nat.eqb_eq in E0j; subst j. destruct es; simpl in *; [discriminate|congruence]. }
    rewrite Hnth, Ekj, E0j. reflexivity. }
  intro q; apply Hsearch; exact H0.
Qed.

(** C10: [set_active_engine idx] returns exactly when [idx] is below the
    number of engines and panics otherwise; [search] panics on an empty
    manager.  Neither case produces an [Err]. *)
Theorem engine_manager_partial {E R} (run : E -> string -> R) :
  (forall (es : list E) k, (exists es', set_active_engine es k = Returns es') <-> k < length es) /\
  (forall (es : list E) k, set_active_engine es k = Panics <-> length es <= k) /\
  (forall q, search run [] q = Panics) /\
  (forall e es q, search run (e :: es) q = Returns (run e q)).
Proof.
  assert (Hsw : forall (es : list E) k,
             set_active_engine es k =
             match es with
             | [] => Panics
             | _ => match nth_error es k with
                    | Some b => Returns (list_set (list_set es 0 b) k (hd b es))
                    | None => Panics
                    end
             end).
  { intros [|x es] k; unfold set_active_engine, vecdeque_swap; simpl.
    - destruct k; reflexivity.
    - destruct (nth_error (x :: es) k); reflexivity. }
  assert (Hnone : forall (es : list E) k,
             set_active_engine es k = Panics <-> length es <= k).
  { intros es k. rewrite Hsw. destruct es as [|x es].
    - simpl. split; intros; [lia|reflexivity].
    - destruct (nth_error (x :: es) k) eqn:Hn.
      + split; [discriminate|]. intro Hle.
        apply nth_error_None in Hle. congruence.
      + split; [intros _; apply nth_error_None; exact Hn|reflexivity]. }
  split; [|split; [exact Hnone|split; [reflexivity|reflexivity]]].
  intros es k. split.
  - intros [es' Hes']. destruct (Nat.lt_ge_cases k (length es)) as [Hlt|Hge]; [exact Hlt|].
    apply Hnone in Hge. congruence.
  - intro Hlt. destruct (set_active_engine es k) eqn:Hs; [eauto|].
    apply Hnone in Hs. lia.
Qed.

(** Witness of C5 on the deque [[10; 11; 12]] with [k = 2]. *)
Lemma set_active_engine_twice_witness :
  2 < length [10; 11; 12] /\
  exists e0 ek es',
    nth_error [10; 11; 12] 0 = Some e0 /\ nth_error [10; 11; 12] 2 = Some ek /\
    (forall q, search (fun (e : nat) (_ : string) => e) [10; 11; 12] q = Returns e0) /\
    set_active_engine [10; 11; 12] 2 = Returns es' /\
    nth_error es' 0 = Some ek /\ nth_error es' 2 = Some e0 /\
    (forall i, i <> 0 -> i <> 2 -> nth_error es' i = nth_error [10; 11; 12] i) /\
    (forall q, search (fun (e : nat) (_ : string) => e) es' q = Returns ek) /\
    set_active_engine es' 2 = Returns [10; 11; 12] /\
    (forall q, search (fun (e : nat) (_ : string) => e) [10; 11; 12] q = Returns e0).
Proof.
  split; [simpl; lia|].
  exact (set_active_engine_twice (fun (e : nat) (_ : string) => e) [10; 11; 12] 2
           ltac:(simpl; lia)).
Defined.
End EngineManagerClaims.

(** ** Parsing dictionary rows *)

Module ParsingClaims.

(** C9, the claim as stated, fails: a row with empty text and code columns
    is read into a [DictItem] whose text and code are empty. *)
Lemma parsed_item_may_be_empty :
  ~ (forall lines it, In (Ok it) (rdr_deserialize lines) ->
       text it <> EmptyString /\ code it <> EmptyString).
Proof.
  intro H.
  specialize (H [tab_line ["text"; "code"; "weight"]%string; tab_line [""; ""; "1"]%string]
                (mkDictItem "" "" 1 None)).
  destruct H as [H _]; [left; reflexivity|]. apply H. reflexivity.
Qed.

(** C9 as amended: reading a row checks nothing about its text and code;
    the item's text and code are the row's [text] and [code] columns as they
    are, empty ones included. *)
Theorem parsed_item_fields_unchecked :
  (forall hdr rec it, deserialize_item hdr rec = Ok it ->
     field "text" hdr rec = Some (text it) /\ field "code" hdr rec = Some (code it)) /\
  (forall t c w n, parse_u32 w = Some n ->
     deserialize_item ["text"; "code"; "weight"; "comment"]%string [t; c; w; EmptyString]
     = Ok (mkDictItem t c n None)).
Proof.
  split.
  - intros hdr rec it H. unfold deserialize_item in H.
    destruct (negb _); [discriminate|].
    destruct (field "text" hdr rec), (field "code" hdr rec), (field "weight" hdr rec);
      try discriminate.
    destruct (parse_u32 _); [|discriminate].
    inversion H; subst; simpl; split; reflexivity.
  - intros t c w n Hw. unfold deserialize_item. simpl. rewrite Hw. reflexivity.
Qed.

End ParsingClaims.

(** ** [Formula::compile] *)

Module CompileClaims.

(** [compile] ends with the database it started from, whatever happens in
    the loop. *)
Lemma compile_db_unchanged dictionaries db :
  snd (compile dictionaries db) = db.
Proof.
  unfold compile. destruct (for_files insert_row db dictionaries); reflexivity.
Qed.

(** C1: [compile] reports success while its transaction is dropped without
    commit: on any input the [dict] table is left as it was, and on a file
    with one row and an empty table the call returns [Ok] although the
    transaction held that row, leaving the table empty. *)
Theorem compile_success_without_commit :
  (forall dictionaries db, snd (compile dictionaries db) = db) /\
  for_files insert_row (Some []) [one_row_file] =
    Ok (Some [mkRow "x" "ab" 3 None]) /\
  compile [one_row_file] (Some []) = (Ok tt, Some []).
Proof.
  split; [exact compile_db_unchanged|].
  split; reflexivity.
Qed.

End CompileClaims.

(** ** [ShapeCodeEngine::search] *)

Module ShapeSearchFacts.

Lemma existsb_eqb_in x l : existsb (String.eqb x) l = true <-> In x l.
Proof.
  rewrite existsb_exists. split.
  - intros [y [Hy Heq]]. apply String.eqb_eq in Heq. subst; exact Hy.
  - intro H. exists x. split; [exact H|apply String.eqb_refl].
Qed.

Lemma unique_from_in seen l x :
  In x (unique_from seen l) <-> In x l /\ ~ In x seen.
Proof.
  revert seen; induction l as [|y l IH]; intro seen; simpl.
  - tauto.
  - destruct (existsb (String.eqb y) seen) eqn:Hy.
    + apply existsb_eqb_in in Hy. rewrite IH.
      split; [tauto|]. intros [[<-|H] Hn]; [contradiction|tauto].
    + assert (Hny : ~ In y seen)
        by (intro H; apply existsb_eqb_in in H; congruence).
      simpl. rewrite IH. simpl. split.
      * intros [<-|[H Hn]]; [tauto|]. split; [tauto|]. tauto.
      * intros [[<-|H] Hn]; [tauto|].
        destruct (String.eqb_spec y x) as [<-|Hne]; [tauto|].
        right. split; [exact H|]. intros [E|E]; [congruence|contradiction].
Qed.

Lemma unique_from_nodup seen l : NoDup (unique_from seen l).
Proof.
  revert seen; induction l as [|y l IH]; intro seen; simpl; [constructor|].
  destruct (existsb (String.eqb y) seen); [apply IH|].
  constructor; [|apply IH].
  rewrite unique_from_in. simpl. tauto.
Qed.

Lemma unique_in l x : In x (unique l) <-> In x l.
Proof. unfold unique. rewrite unique_from_in. simpl. tauto. Qed.

Lemma unique_nodup l : NoDup (unique l).
Proof. apply unique_from_nodup. Qed.

Lemma like_percent s : like_match (String "%"%char EmptyString) s = true.
Proof.
  induction s as [|c s IH]; [reflexivity|].
  simpl in *. exact IH.
Qed.


Lemma insert_desc_perm x l : Permutation.Permutation (insert_desc x l) (x :: l).
Proof.
  induction l as [|y l IH]; simpl; [reflexivity|].
  destruct (it_weight y <? it_weight x)%N; [reflexivity|].
  eapply Permutation.perm_trans; [apply Permutation.perm_skip, IH|].
  apply Permutation.perm_swap.
Qed.

Lemma sort_desc_perm l : Permutation.Permutation (sort_desc l) l.
Proof.
  induction l as [|x l IH]; simpl; [reflexivity|].
  eapply Permutation.perm_trans; [apply insert_desc_perm|].
  apply Permutation.perm_skip, IH.
Qed.




Lemma first_in (r : sql_row) rs : In (sqlite_first_row r rs) (r :: rs).
Proof. left; reflexivity. Qed.

Section Group.
Variable rep : sql_row -> list sql_row -> sql_row.
Hypothesis rep_in : forall r rs, In (rep r rs) (r :: rs).

Lemma group_texts rows : map r_text (group_by_text rep rows) = unique (map r_text rows).
  Proof.
    unfold group_by_text.
    assert (H : forall ts, (forall t, In t ts -> In t (map r_text rows)) ->
              map r_text (flat_map (fun t =>
                 match filter (fun r => String.eqb (r_text r) t) rows with
                 | [] => [] | r :: rs => [rep r rs] end) ts) = ts).
    { induction ts as [|t ts IH]; intro Hts; simpl; [reflexivity|].
      destruct (filter (fun r => String.eqb (r_text r) t) rows) as [|r rs] eqn:Hf.
      - exfalso. destruct (proj1 (in_map_iff _ _ _) (Hts t (or_introl eq_refl)))
          as [r [Hr Hin]].
        assert (In r (filter (fun r => String.eqb (r_text r) t) rows)).
        { apply filter_In. split; [exact Hin|]. apply String.eqb_eq; exact Hr. }
        rewrite Hf in H; contradiction.
      - simpl. f_equal; [|apply IH; intros; apply Hts; right; assumption].
        assert (Hin : In (rep r rs) (filter (fun r => String.eqb (r_text r) t) rows))
          by (rewrite Hf; apply rep_in).
        apply filter_In in Hin as [_ Ht]. apply String.eqb_eq; exact Ht. }
    apply H. intros t Ht. apply unique_in; exact Ht.
  Qed.

End Group.

End ShapeSearchFacts.

Module ShapeSearchClaims.
Import ShapeSearchFacts.

(** C2: [search] means to return the rows whose code starts with the
    query (it appends [%] to it), but [LIKE] ignores ASCII case and reads
    an unescaped [%] or [_] of the query as a wildcard.  On the one row
    [x, ab, 3], whichever row SQLite keeps for a group, the queries [A],
    [_] and [%b] all return that row although [ab] starts with none of
    them, while the trie engine, over the same entry, returns nothing for
    [A]: it matches the exact byte prefix. *)
Theorem shape_search_like_not_prefix
    (rep : sql_row -> list sql_row -> sql_row)
    (Hrep : forall r rs, In (rep r rs) (r :: rs)) :
  let rows := [mkRow "x" "ab" 3 None] in
  shape_search rep (Some rows) "A" = Ok [mkResult "x" "ab" 3 None] /\
  shape_search rep (Some rows) "_" = Ok [mkResult "x" "ab" 3 None] /\
  shape_search rep (Some rows) "%b" = Ok [mkResult "x" "ab" 3 None] /\
  starts_with "A" "ab" = false /\ starts_with "_" "ab" = false /\
  starts_with "%b" "ab" = false /\
  redb_search (mkRedbEngine (Some (fun _ => Ok (Some (3%N, None)))) [("ab", ["x"])%string]) "A"
    = Ok [].
Proof.
  intro rows.
  assert (Hr : rep (mkRow "x" "ab" 3 None) [] = mkRow "x" "ab" 3 None).
  { destruct (Hrep (mkRow "x" "ab" 3 None) []) as [H|[]]. symmetry; exact H. }
  unfold rows. repeat split; vm_compute; try rewrite Hr; reflexivity.
Qed.

Lemma shape_search_like_not_prefix_witness :
  (forall r rs, In (sqlite_first_row r rs) (r :: rs)) /\
  let rows := [mkRow "x" "ab" 3 None] in
  shape_search sqlite_first_row (Some rows) "A" = Ok [mkResult "x" "ab" 3 None] /\
  shape_search sqlite_first_row (Some rows) "_" = Ok [mkResult "x" "ab" 3 None] /\
  shape_search sqlite_first_row (Some rows) "%b" = Ok [mkResult "x" "ab" 3 None] /\
  starts_with "A" "ab" = false /\ starts_with "_" "ab" = false /\
  starts_with "%b" "ab" = false /\
  redb_search (mkRedbEngine (Some (fun _ => Ok (Some (3%N, None)))) [("ab", ["x"])%string]) "A"
    = Ok [].
Proof.
  split; [exact first_in|].
  exact (shape_search_like_not_prefix sqlite_first_row first_in).
Defined.



End ShapeSearchClaims.

(** ** [EngineWithRedb::search] *)

Module RedbSearchClaims.

Lemma filter_map_app {A B} (f : A -> option B) l1 l2 :
  filter_map f (l1 ++ l2) = filter_map f l1 ++ filter_map f l2.
Proof.
  induction l1 as [|x l1 IH]; simpl; [reflexivity|].
  destruct (f x); simpl; rewrite IH; reflexivity.
Qed.

Lemma filter_map_flat_map {A B C} (f : B -> option C) (g : A -> list B) l :
  filter_map f (flat_map g l) = flat_map (fun x => filter_map f (g x)) l.
Proof.
  induction l as [|x l IH]; simpl; [reflexivity|].
  rewrite filter_map_app, IH. reflexivity.
Qed.

Lemma filter_map_map {A B C} (f : B -> option C) (h : A -> B) l :
  filter_map f (map h l) = filter_map (fun x => f (h x)) l.
Proof.
  induction l as [|x l IH]; simpl; [reflexivity|]. rewrite IH. reflexivity.
Qed.

Lemma filter_map_ext {A B} (f g : A -> option B) l :
  (forall x, f x = g x) -> filter_map f l = filter_map g l.
Proof.
  intro H. induction l as [|x l IH]; simpl; [reflexivity|]. rewrite H, IH. reflexivity.
Qed.

Lemma in_filter_map {A B} (f : A -> option B) l y :
  In y (filter_map f l) <-> exists x, In x l /\ f x = Some y.
Proof.
  induction l as [|x l IH]; simpl.
  - split; [contradiction|]. intros [x [[] _]].
  - destruct (f x) eqn:Hfx; simpl; rewrite IH.
    + split.
      * intros [<-|[x' [Hx' Hf]]]; [exists x; auto|exists x'; auto].
      * intros [x' [[<-|Hx'] Hf]]; [left; congruence|right; exists x'; auto].
    + split.
      * intros [x' [Hx' Hf]]. exists x'; auto.
      * intros [x' [[<-|Hx'] Hf]]; [congruence|exists x'; auto].
Qed.

(** C3: once the read transaction and the [DICTIONARY] table are open,
    [search q] succeeds for every definitions table: it yields one result
    [(key, text, weight, comment)] for each text of each trie entry whose key
    starts with [q] and whose lookup returns a definition, in trie order,
    and leaves out the texts whose lookup returns nothing or an error. *)
Theorem redb_search_best_effort (get : def_table_get)
    (trie : list (string * list string)) (q : string) :
  exists res,
    redb_search (mkRedbEngine (Some get) trie) q = Ok res /\
    res = flat_map (fun '(key, texts) =>
            filter_map (fun t => match get t with
                                 | Ok (Some (w, c)) => Some (mkResult t key w c)
                                 | _ => None
                                 end) texts)
            (filter (fun kv => starts_with q (fst kv)) trie) /\
    (forall i, In i res <->
       exists key texts t w c,
         In (key, texts) trie /\ starts_with q key = true /\ In t texts /\
         get t = Ok (Some (w, c)) /\ i = mkResult t key w c).
Proof.
  set (pick := fun '(key, texts) =>
         filter_map (fun t => match get t with
                              | Ok (Some (w, c)) => Some (mkResult t key w c)
                              | _ => None
                              end) (texts : list string)).
  assert (Heq : filter_map ok_flatten
                  (flat_map (lookup_entry get) (iter_prefix q trie))
                = flat_map pick (filter (fun kv => starts_with q (fst kv)) trie)).
  { rewrite filter_map_flat_map. unfold iter_prefix. apply flat_map_ext.
    intros [key texts]. unfold lookup_entry, pick. rewrite filter_map_map.
    apply filter_map_ext. intro t. destruct (get t) as [[[w c]|]|e]; reflexivity. }
  exists (flat_map pick (filter (fun kv => starts_with q (fst kv)) trie)).
  split; [unfold redb_search; simpl; rewrite Heq; reflexivity|].
  split; [reflexivity|].
  intro i. rewrite in_flat_map. split.
  - intros [[key texts] [Hkv Hi]]. apply filter_In in Hkv as [Hkv Hq].
    simpl in Hi, Hq. apply in_filter_map in Hi as [t [Ht Hg]].
    destruct (get t) as [[[w c]|]|e] eqn:Hgt; try discriminate.
    inversion Hg; subst. exists key, texts, t, w, c. auto.
  - intros [key [texts [t [w c]]]]. destruct c as [c [Hkv [Hq [Ht [Hg ->]]]]].
    exists (key, texts). split; [apply filter_In; auto|].
    simpl. apply in_filter_map. exists t. rewrite Hg. auto.
Qed.

End RedbSearchClaims.

(** ** Reading and maps *)

Module ReadFacts.

Definition collect (rows : list (result DictItem)) : result (list DictItem) :=
  for_rows (fun acc it => Ok (acc ++ [it])) [] rows.

Lemma for_rows_append rows : forall acc,
  for_rows (fun acc it => Ok (acc ++ [it])) acc rows =
  match collect rows with Ok l => Ok (acc ++ l) | Err e => Err e end.
Proof.
  unfold collect.
  induction rows as [|[it|e] rows IH]; intro acc; simpl.
  - rewrite app_nil_r. reflexivity.
  - rewrite (IH (acc ++ [it])), (IH [it]).
    destruct (for_rows _ [] rows); [rewrite <- app_assoc; reflexivity|reflexivity].
  - reflexivity.
Qed.

Lemma read_all_cons ls rest :
  read_all (FileLines ls :: rest) =
  match collect (rdr_deserialize ls) with
  | Ok l1 => match read_all rest with Ok l2 => Ok (l1 ++ l2) | Err e => Err e end
  | Err e => Err e
  end.
Proof.
  assert (Hf : forall files acc,
             for_files (fun acc it => Ok (acc ++ [it])) acc files =
             match read_all files with Ok l => Ok (acc ++ l) | Err e => Err e end).
  { induction files as [|[|ls' ] files IH]; intro acc; unfold read_all; simpl.
    - rewrite app_nil_r. reflexivity.
    - reflexivity.
    - rewrite !for_rows_append. simpl.
      destruct (collect _); [|reflexivity].
      rewrite !IH. destruct (read_all files); [|reflexivity].
      rewrite app_assoc. reflexivity. }
  unfold read_all at 1. simpl. rewrite (for_rows_append _ []). simpl.
  destruct (collect _); [|reflexivity]. apply Hf.
Qed.

Lemma for_rows_total {S} (f : S -> DictItem -> S) rows : forall s,
  for_rows (fun s it => Ok (f s it)) s rows =
  match collect rows with Ok l => Ok (fold_left f l s) | Err e => Err e end.
Proof.
  induction rows as [|[it|e] rows IH]; intro s; simpl; [reflexivity| |reflexivity].
  rewrite IH. unfold collect. simpl. rewrite (for_rows_append _ [it]). fold (collect rows).
  destruct (collect rows); reflexivity.
Qed.

(** A loop whose body cannot fail runs over exactly the items [read_all]
    reads, and fails exactly when [read_all] does. *)
Lemma for_files_total {S} (f : S -> DictItem -> S) files : forall s,
  for_files (fun s it => Ok (f s it)) s files =
  match read_all files with Ok l => Ok (fold_left f l s) | Err e => Err e end.
Proof.
  induction files as [|[|ls] files IH]; intro s.
  - reflexivity.
  - reflexivity.
  - rewrite read_all_cons. simpl. rewrite for_rows_total.
    destruct (collect _) as [l1|e]; [|reflexivity].
    rewrite IH. destruct (read_all files); [|reflexivity].
    rewrite fold_left_app. reflexivity.
Qed.

Lemma map_get_insert {V} k k' (v : V) m :
  map_get k (map_insert k' v m) = if String.eqb k' k then Some v else map_get k m.
Proof.
  induction m as [|[k1 v1] m IH]; simpl.
  - destruct (String.eqb k' k); reflexivity.
  - destruct (String.eqb k1 k') eqn:E1.
    + apply String.eqb_eq in E1; subst k1. simpl.
      destruct (String.eqb k' k); reflexivity.
    + simpl. rewrite IH.
      destruct (String.eqb k1 k) eqn:E2; [|reflexivity].
      apply String.eqb_eq in E2; subst k1.
      rewrite String.eqb_sym in E1. rewrite E1. reflexivity.
Qed.

Lemma last_with_text_snoc t items x :
  last_with_text t (items ++ [x]) =
  if String.eqb (text x) t then Some x else last_with_text t items.
Proof.
  unfold last_with_text. rewrite rev_app_distr. reflexivity.
Qed.

Lemma texts_for_code_snoc c items x :
  texts_for_code c (items ++ [x]) =
  if String.eqb (code x) c
  then Some (match texts_for_code c items with None => [] | Some l => l end ++ [text x])
  else texts_for_code c items.
Proof.
  unfold texts_for_code. rewrite filter_app. simpl.
  destruct (String.eqb (code x) c).
  - destruct (filter _ items) as [|y l]; [reflexivity|].
    simpl. rewrite map_app. reflexivity.
  - rewrite app_nil_r. reflexivity.
Qed.

End ReadFacts.

(** ** [Formula::compile2] *)

Module Compile2Claims.
Import ReadFacts.

Lemma compile2_fold items : forall tbl,
  (forall t, map_get t (c2_table (fold_left compile2_update items (mkC2 tbl []))) =
     match last_with_text t items with
     | Some it => Some (weight it, comment it)
     | None => map_get t tbl
     end) /\
  (forall c, map_get c (c2_trie (fold_left compile2_update items (mkC2 tbl []))) =
     texts_for_code c items).
Proof.
  intro tbl. induction items as [|x items IH] using rev_ind.
  - split; intro; reflexivity.
  - destruct IH as [IHt IHc].
    rewrite fold_left_app. simpl. unfold compile2_update at 1. simpl.
    split.
    + intro t. rewrite map_get_insert, last_with_text_snoc.
      destruct (String.eqb (text x) t); [reflexivity|apply IHt].
    + intro c. rewrite texts_for_code_snoc, IHc.
      destruct (texts_for_code (code x) items) as [l|] eqn:Hl;
        rewrite map_get_insert; destruct (String.eqb (code x) c) eqn:Ec;
        try (rewrite IHc; reflexivity);
        apply String.eqb_eq in Ec; subst c; rewrite Hl; reflexivity.
Qed.

(** C6: when [compile2] reads the rows [items] from the formula's files,
    it succeeds; for each text, the committed definitions table holds the
    weight and comment of the last row with that text across all the files
    (texts absent from the rows keep their earlier entry), and the trie
    written to disk maps each code to the texts of its rows in encounter
    order, duplicates included. *)
Theorem compile2_last_write_wins (dictionaries : list csv_file) (st : redb_store)
    (items : list DictItem) (Hread : read_all dictionaries = Ok items) :
  exists st' trie,
    compile2 dictionaries st = (Ok tt, st') /\
    store_trie_file st' = Some trie /\
    (forall t it, last_with_text t items = Some it ->
       map_get t (store_table st') = Some (weight it, comment it)) /\
    (forall t, last_with_text t items = None ->
       map_get t (store_table st') = map_get t (store_table st)) /\
    (forall c, map_get c trie = texts_for_code c items).
Proof.
  destruct (compile2_fold items (store_table st)) as [Ht Hc].
  set (c2 := fold_left compile2_update items (mkC2 (store_table st) [])).
  exists (mkStore (c2_table c2) (Some (c2_trie c2))), (c2_trie c2).
  split.
  { unfold compile2, compile2_row. rewrite for_files_total, Hread. reflexivity. }
  split; [reflexivity|].
  split; [intros t it Hit; simpl; unfold c2; rewrite Ht, Hit; reflexivity|].
  split; [intros t Hit; simpl; unfold c2; rewrite Ht, Hit; reflexivity|].
  intro c. apply Hc.
Qed.

(** Witness of C6 on [two_files] and an empty store. *)
Lemma compile2_last_write_wins_witness :
  read_all two_files = Ok two_files_items /\
  exists st' trie,
    compile2 two_files (mkStore [] None) = (Ok tt, st') /\
    store_trie_file st' = Some trie /\
    (forall t it, last_with_text t two_files_items = Some it ->
       map_get t (store_table st') = Some (weight it, comment it)) /\
    (forall t, last_with_text t two_files_items = None ->
       map_get t (store_table st') = map_get t (store_table (mkStore [] None))) /\
    (forall c, map_get c trie = texts_for_code c two_files_items).
Proof.
  split; [vm_compute; reflexivity|].
  apply (compile2_last_write_wins two_files (mkStore [] None) two_files_items).
  vm_compute; reflexivity.
Defined.

End Compile2Claims.

(** ** [build2] *)

Module Build2Facts.
Import ShapeSearchFacts ReadFacts.

Lemma index_of_contract : mphf_contract index_of.
Proof.
  intros keys Hnd. split.
  - induction keys as [|x keys IH]; intros k Hk; [destruct Hk|]. simpl.
    destruct (String.eqb x k) eqn:E; [lia|].
    destruct Hk as [->|Hk]; [rewrite String.eqb_refl in E; discriminate|].
    inversion Hnd; subst. specialize (IH H2 k Hk). lia.
  - induction keys as [|x keys IH]; intros k1 k2 H1 H2 Heq; [destruct H1|].
    simpl in Heq. inversion Hnd; subst.
    destruct (String.eqb x k1) eqn:E1, (String.eqb x k2) eqn:E2;
      try discriminate.
    + apply String.eqb_eq in E1, E2. congruence.
    + destruct H1 as [->|H1]; [rewrite String.eqb_refl in E1; discriminate|].
      destruct H2 as [->|H2]; [rewrite String.eqb_refl in E2; discriminate|].
      injection Heq as Heq. apply IH; assumption.
Qed.

Lemma sorted_insert_in t s y : In y (sorted_insert t s) <-> y = t \/ In y s.
Proof.
  induction s as [|x s IH]; simpl; [intuition congruence|].
  destruct (String.ltb t x); simpl; [intuition congruence|].
  rewrite IH. intuition congruence.
Qed.

Lemma sorted_insert_nodup t s : ~ In t s -> NoDup s -> NoDup (sorted_insert t s).
Proof.
  induction s as [|x s IH]; intros Hn Hnd; simpl; [repeat constructor; auto|].
  inversion Hnd; subst.
  destruct (String.ltb t x); constructor; auto.
  rewrite sorted_insert_in. intros [->|H]; [apply Hn; left; reflexivity|contradiction].
  apply IH; auto. intro H; apply Hn; right; exact H.
Qed.

Lemma set_insert_in t s y : In y (set_insert t s) <-> y = t \/ In y s.
Proof.
  unfold set_insert. destruct (existsb (String.eqb t) s) eqn:E.
  - apply existsb_eqb_in in E. split; [tauto|]. intros [->|H]; assumption.
  - apply sorted_insert_in.
Qed.

Lemma set_insert_nodup t s : NoDup s -> NoDup (set_insert t s).
Proof.
  unfold set_insert. destruct (existsb (String.eqb t) s) eqn:E; [auto|].
  apply sorted_insert_nodup. intro H. apply existsb_eqb_in in H. congruence.
Qed.

Lemma set_nth_lt {A} (l : list A) i x : i < length l ->
  exists l', set_nth l i x = Some l' /\ length l' = length l /\
    nth_error l' i = Some x /\ (forall j, j <> i -> nth_error l' j = nth_error l j).
Proof.
  revert i; induction l as [|y l IH]; intros i Hi; simpl in Hi; [lia|].
  destruct i as [|i].
  - exists (x :: l). repeat split. intros [|j] Hj; [lia|reflexivity].
  - destruct (IH i ltac:(lia)) as [l' [Hs [Hl [Hx Ho]]]].
    exists (y :: l'). simpl. rewrite Hs. repeat split; simpl; auto.
    intros [|j] Hj; [reflexivity|]. apply Ho. lia.
Qed.

Lemma first_with_text_snoc t done x :
  first_with_text t (done ++ [x]) =
  match first_with_text t done with
  | Some it => Some it
  | None => if String.eqb (text x) t then Some x else None
  end.
Proof.
  unfold first_with_text. induction done as [|y done IH]; simpl; [reflexivity|].
  destruct (String.eqb (text y) t); [reflexivity|exact IH].
Qed.

Lemma first_with_text_none t done :
  first_with_text t done = None <-> ~ In t (map text done).
Proof.
  unfold first_with_text. induction done as [|y done IH]; simpl; [tauto|].
  destruct (String.eqb (text y) t) eqn:E.
  - apply String.eqb_eq in E. split; [discriminate|]. intro H; exfalso; apply H; left; exact E.
  - apply String.eqb_neq in E. rewrite IH. tauto.
Qed.

Lemma first_with_text_some t done it :
  first_with_text t done = Some it -> text it = t.
Proof.
  unfold first_with_text. intro H. apply find_some in H as [_ H].
  apply String.eqb_eq; exact H.
Qed.

Lemma count_occ_map_inj (h : string -> nat) l t :
  NoDup l -> (forall a b, In a l -> In b l -> h a = h b -> a = b) -> In t l ->
  count_occ Nat.eq_dec (map h l) (h t) = 1.
Proof.
  intros Hnd Hinj Ht.
  apply (proj1 (NoDup_count_occ' Nat.eq_dec (map h l))); [|apply in_map; exact Ht].
  clear Ht. induction Hnd as [|x l Hx Hnd IH]; simpl; constructor.
  - intro Hin. apply in_map_iff in Hin as [y [Hy Hin]].
    assert (y = x) by (apply Hinj; simpl; auto). subst; contradiction.
  - apply IH. intros a b Ha Hb. apply Hinj; simpl; auto.
Qed.

End Build2Facts.

Module Build2Loop.
Import ShapeSearchFacts ReadFacts Build2Facts.

Section Loop.
Variable hash : string -> nat.
Variable n : nat.
Variable universe : list string.
Hypothesis hash_lt : forall t, In t universe -> hash t < n.
Hypothesis hash_inj : forall a b, In a universe -> In b universe -> hash a = hash b -> a = b.

Definition trie_ok (done : list DictItem) (trie : list (string * list string)) : Prop :=
    forall c, match map_get c trie with
              | None => forall it, In it done -> code it <> c
              | Some s => NoDup s /\
                  (forall t, In t s <-> exists it, In it done /\ code it = c /\ text it = t)
              end.

Definition inv (done : list DictItem) (st : build2_state) : Prop :=
    (forall t, In t (b2_visited st) <-> In t (map text done)) /\
    NoDup (b2_visited st) /\
    b2_writes st = map hash (b2_visited st) /\
    length (b2_def st) = n /\
    (forall t it, first_with_text t done = Some it ->
       nth_error (b2_def st) (hash t) = Some (weight it, comment it)) /\
    trie_ok done (b2_trie st).

Lemma trie_step done trie x :
    trie_ok done trie ->
    trie_ok (done ++ [x])
      (match map_get (code x) trie with
       | Some entry => map_insert (code x) (set_insert (text x) entry) trie
       | None => map_insert (code x) [text x] trie
       end).
  Proof.
    intros Hok c.
    assert (Hx : forall P : DictItem -> Prop,
               (exists it, In it (done ++ [x]) /\ P it) <->
               (exists it, In it done /\ P it) \/ P x).
    { intro P. split.
      - intros [it [Hin HP]]. apply in_app_iff in Hin as [Hin|[<-|[]]]; eauto.
      - intros [[it [Hin HP]]|HP].
        + exists it. split; [apply in_app_iff; auto|exact HP].
        + exists x. split; [apply in_app_iff; simpl; auto|exact HP]. }
    specialize (Hok c) as Hc. pose proof (Hok (code x)) as Hcx.
    destruct (map_get (code x) trie) as [e|] eqn:He;
      rewrite map_get_insert; destruct (String.eqb (code x) c) eqn:Ec.
    - apply String.eqb_eq in Ec; subst c. destruct Hcx as [Hnd Hin].
      split; [apply set_insert_nodup; exact Hnd|].
      intro t. rewrite set_insert_in, Hx, <- Hin. intuition congruence.
    - apply String.eqb_neq in Ec. destruct (map_get c trie) as [s|].
      + destruct Hc as [Hnd Hin]. split; [exact Hnd|].
        intro t. rewrite Hx, <- Hin. intuition.
      + intros it Hit. apply in_app_iff in Hit as [Hit|[<-|[]]]; auto.
    - apply String.eqb_eq in Ec; subst c.
      split; [repeat constructor; auto|].
      intro t. rewrite Hx. simpl. split.
      + intros [<-|[]]. right. auto.
      + intros [[it [Hin [Hc' _]]]|[_ <-]]; [exfalso; exact (Hcx it Hin Hc')|auto].
    - apply String.eqb_neq in Ec. destruct (map_get c trie) as [s|].
      + destruct Hc as [Hnd Hin]. split; [exact Hnd|].
        intro t. rewrite Hx, <- Hin. intuition.
      + intros it Hit. apply in_app_iff in Hit as [Hit|[<-|[]]]; auto.
  Qed.

Lemma step_inv done st x :
    inv done st -> In (text x) universe ->
    (forall t, In t (map text done) -> In t universe) ->
    exists st', build2_step hash st x = Returns st' /\ inv (done ++ [x]) st'.
  Proof.
    intros [Hvis [Hnd [Hw [Hlen [Hdef Htrie]]]]] Hxu Hdu.
    unfold build2_step.
    destruct (existsb (String.eqb (text x)) (b2_visited st)) eqn:Ev.
    - apply existsb_eqb_in in Ev. eexists. split; [reflexivity|].
      unfold inv; simpl.
      split; [|split; [exact Hnd|split; [exact Hw|split; [exact Hlen|split]]]].
      + intro t. rewrite map_app, in_app_iff, <- Hvis. simpl.
        split; [intro H; left; exact H|intros [H|[<-|[]]]; [exact H|exact Ev]].
      + intros t it Hit. rewrite first_with_text_snoc in Hit.
        destruct (first_with_text t done) as [it'|] eqn:Hf;
          [inversion Hit; subst; apply Hdef; exact Hf|].
        destruct (String.eqb (text x) t) eqn:Et; [|discriminate].
        apply String.eqb_eq in Et; subst t.
        apply first_with_text_none in Hf. apply Hvis in Ev. contradiction.
      + apply trie_step; exact Htrie.
    - assert (Hnv : ~ In (text x) (b2_visited st))
        by (intro H; apply existsb_eqb_in in H; congruence).
      destruct (set_nth_lt (b2_def st) (hash (text x)) (weight x, comment x))
        as [d [Hs [Hdl [Hdx Hdo]]]]; [rewrite Hlen; apply hash_lt; exact Hxu|].
      rewrite Hs. eexists. split; [reflexivity|].
      unfold inv; simpl.
      split; [|split; [constructor; assumption|split; [rewrite Hw; reflexivity|
               split; [rewrite Hdl; exact Hlen|split]]]].
      + intro t. rewrite map_app, in_app_iff, <- Hvis. simpl.
        split; [intros [<-|H]; auto|intros [H|[<-|[]]]; auto].
      + intros t it Hit. rewrite first_with_text_snoc in Hit.
        destruct (first_with_text t done) as [it'|] eqn:Hf.
        * inversion Hit; subst it'.
          assert (Htd : In t (map text done))
            by (destruct (In_dec string_dec t (map text done)) as [H|H]; [exact H|
                apply first_with_text_none in H; congruence]).
          rewrite Hdo; [apply Hdef; exact Hf|].
          intro Hh. apply hash_inj in Hh; [|apply Hdu; exact Htd|exact Hxu].
          subst t. apply Hnv, Hvis. exact Htd.
        * destruct (String.eqb (text x) t) eqn:Et; [|discriminate].
          apply String.eqb_eq in Et; subst t. inversion Hit; subst. exact Hdx.
      + apply trie_step; exact Htrie.
  Qed.

Lemma loop_inv rest : forall done st,
    inv done st ->
    (forall t, In t (map text (done ++ rest)) -> In t universe) ->
    exists st', build2_loop hash st rest = Returns st' /\ inv (done ++ rest) st'.
  Proof.
    induction rest as [|x rest IH]; intros done st Hinv Hu.
    - exists st. rewrite app_nil_r. split; [reflexivity|exact Hinv].
    - assert (Hxu : In (text x) universe)
        by (apply Hu; rewrite map_app; apply in_app_iff; right; left; reflexivity).
      destruct (step_inv done st x Hinv Hxu) as [st1 [Hs Hinv1]].
      { intros t Ht. apply Hu. rewrite map_app. apply in_app_iff. left; exact Ht. }
      simpl. rewrite Hs.
      replace (done ++ x :: rest) with ((done ++ [x]) ++ rest)
        by (rewrite <- app_assoc; reflexivity).
      apply IH; [exact Hinv1|].
      rewrite <- app_assoc. exact Hu.
  Qed.
End Loop.

(** Under the perfect-hash contract, [build2] runs its loop to the end and
    its final state satisfies [inv] for all the items. *)
Lemma build2_items_inv (mphf_new : list string -> string -> nat)
    (Hm : mphf_contract mphf_new) (items : list DictItem) :
  exists st, build2_items mphf_new items = Returns st /\
    inv (build2_hash mphf_new items) (length (unique (map text items))) items st.
Proof.
  destruct (Hm (unique (map text items)) (unique_nodup _)) as [Hlt Hinj].
  unfold build2_items.
  destruct (loop_inv (build2_hash mphf_new items) (length (unique (map text items)))
              (unique (map text items)) Hlt Hinj items [] (build2_init (unique (map text items))))
    as [st [Hl Hi]].
  - unfold inv, build2_init; simpl.
    split; [intro; reflexivity|].
    split; [constructor|]. split; [reflexivity|].
    split; [apply repeat_length|]. split; [intros t it H; discriminate|].
    intros c it [].
  - intros t Ht. apply unique_in. exact Ht.
  - exists st. split; [exact Hl|exact Hi].
Qed.
End Build2Loop.

Module Build2Claims.
Import ShapeSearchFacts ReadFacts Build2Facts Build2Loop.

Lemma build2_run (mphf_new : list string -> string -> nat)
    (Hm : mphf_contract mphf_new) inputs items :
  read_all inputs = Ok items ->
  exists st, build2 mphf_new inputs = Returns (Ok st) /\
    inv (build2_hash mphf_new items) (length (unique (map text items))) items st.
Proof.
  intro Hread. destruct (build2_items_inv mphf_new Hm items) as [st [Hb Hi]].
  exists st. unfold build2. rewrite Hread, Hb. split; [reflexivity|exact Hi].
Qed.

Lemma build2_hash_inj (mphf_new : list string -> string -> nat)
    (Hm : mphf_contract mphf_new) items t1 t2 :
  In t1 (map text items) -> In t2 (map text items) ->
  build2_hash mphf_new items t1 = build2_hash mphf_new items t2 -> t1 = t2.
Proof.
  intros H1 H2. destruct (Hm _ (unique_nodup (map text items))) as [_ Hinj].
  apply Hinj; apply unique_in; assumption.
Qed.

(** C4: with [Mphf::new] meeting its contract, [build2] on files read as
    [items] runs to the end, and for every text of the items the slot the
    hash assigns to it holds the weight and comment of the first item with
    that text, and that slot is written exactly once. *)
Theorem build2_first_occurrence_once (mphf_new : list string -> string -> nat)
    (Hm : mphf_contract mphf_new) (inputs : list csv_file) (items : list DictItem)
    (Hread : read_all inputs = Ok items) :
  exists st, build2 mphf_new inputs = Returns (Ok st) /\
    forall t it, first_with_text t items = Some it ->
      nth_error (b2_def st) (build2_hash mphf_new items t) = Some (weight it, comment it) /\
      count_occ Nat.eq_dec (b2_writes st) (build2_hash mphf_new items t) = 1.
Proof.
  destruct (build2_run mphf_new Hm inputs items Hread)
    as [st [Hb [Hvis [Hnd [Hw [_ [Hdef _]]]]]]].
  exists st. split; [exact Hb|]. intros t it Hit. split; [apply Hdef; exact Hit|].
  rewrite Hw. apply count_occ_map_inj; [exact Hnd| |].
  - intros a b Ha Hb'. apply Hvis in Ha, Hb'. apply build2_hash_inj; assumption.
  - apply Hvis. destruct (In_dec string_dec t (map text items)) as [H|H]; [exact H|].
    apply first_with_text_none in H. congruence.
Qed.

(** C7: with [Mphf::new] meeting its contract, the trie [build2] builds
    maps each code to the set of the texts of the items with that code:
    each such text occurs exactly once in the entry, however many items
    carry it, and codes without items have no entry. *)
Theorem build2_trie_text_sets (mphf_new : list string -> string -> nat)
    (Hm : mphf_contract mphf_new) (inputs : list csv_file) (items : list DictItem)
    (Hread : read_all inputs = Ok items) :
  exists st, build2 mphf_new inputs = Returns (Ok st) /\
    forall c, match map_get c (b2_trie st) with
              | None => forall it, In it items -> code it <> c
              | Some s =>
                  (forall t, In t s <-> exists it, In it items /\ code it = c /\ text it = t) /\
                  (forall t, In t s -> count_occ string_dec s t = 1)
              end.
Proof.
  destruct (build2_run mphf_new Hm inputs items Hread)
    as [st [Hb [_ [_ [_ [_ [_ Htrie]]]]]]].
  exists st. split; [exact Hb|]. intro c. specialize (Htrie c).
  destruct (map_get c (b2_trie st)) as [s|]; [|exact Htrie].
  destruct Htrie as [Hnd Hin]. split; [exact Hin|].
  apply NoDup_count_occ'. exact Hnd.
Qed.

(** C8: [build2] hashes the distinct texts of the items ([unique] yields
    each text once); with [Mphf::new] meeting its contract, the definition
    array has one slot per distinct text, every text's index lies inside
    it, and two distinct texts never share an index. *)
Theorem build2_hash_perfect (mphf_new : list string -> string -> nat)
    (Hm : mphf_contract mphf_new) (inputs : list csv_file) (items : list DictItem)
    (Hread : read_all inputs = Ok items) :
  NoDup (unique (map text items)) /\
  (forall t, In t (unique (map text items)) <-> In t (map text items)) /\
  exists st, build2 mphf_new inputs = Returns (Ok st) /\
    length (b2_def st) = length (unique (map text items)) /\
    (forall t, In t (map text items) -> build2_hash mphf_new items t < length (b2_def st)) /\
    (forall t1 t2, In t1 (map text items) -> In t2 (map text items) -> t1 <> t2 ->
       build2_hash mphf_new items t1 <> build2_hash mphf_new items t2).
Proof.
  split; [apply unique_nodup|]. split; [apply unique_in|].
  destruct (build2_run mphf_new Hm inputs items Hread)
    as [st [Hb [_ [_ [_ [Hlen _]]]]]].
  exists st. split; [exact Hb|]. split; [exact Hlen|]. split.
  - intros t Ht. rewrite Hlen. apply (proj1 (Hm _ (unique_nodup (map text items)))).
    apply unique_in; exact Ht.
  - intros t1 t2 H1 H2 Hne Heq. apply Hne. eapply build2_hash_inj; eassumption.
Qed.

(** Witness of C4 on [two_files], with the position hash. *)
Lemma build2_first_occurrence_once_witness :
  mphf_contract index_of /\ read_all two_files = Ok two_files_items /\
  exists st, build2 index_of two_files = Returns (Ok st) /\
    forall t it, first_with_text t two_files_items = Some it ->
      nth_error (b2_def st) (build2_hash index_of two_files_items t) = Some (weight it, comment it) /\
      count_occ Nat.eq_dec (b2_writes st) (build2_hash index_of two_files_items t) = 1.
Proof.
  split; [exact index_of_contract|]. split; [vm_compute; reflexivity|].
  apply (build2_first_occurrence_once index_of index_of_contract two_files two_files_items).
  vm_compute; reflexivity.
Defined.

(** Witness of C7 on [two_files], with the position hash. *)
Lemma build2_trie_text_sets_witness :
  mphf_contract index_of /\ read_all two_files = Ok two_files_items /\
  exists st, build2 index_of two_files = Returns (Ok st) /\
    forall c, match map_get c (b2_trie st) with
              | None => forall it, In it two_files_items -> code it <> c
              | Some s =>
                  (forall t, In t s <-> exists it, In it two_files_items /\ code it = c /\ text it = t) /\
                  (forall t, In t s -> count_occ string_dec s t = 1)
              end.
Proof.
  split; [exact index_of_contract|]. split; [vm_compute; reflexivity|].
  apply (build2_trie_text_sets index_of index_of_contract two_files two_files_items).
  vm_compute; reflexivity.
Defined.

(** Witness of C8 on [two_files], with the position hash. *)
Lemma build2_hash_perfect_witness :
  mphf_contract index_of /\ read_all two_files = Ok two_files_items /\
  NoDup (unique (map text two_files_items)) /\
  (forall t, In t (unique (map text two_files_items)) <-> In t (map text two_files_items)) /\
  exists st, build2 index_of two_files = Returns (Ok st) /\
    length (b2_def st) = length (unique (map text two_files_items)) /\
    (forall t, In t (map text two_files_items) ->
       build2_hash index_of two_files_items t < length (b2_def st)) /\
    (forall t1 t2, In t1 (map text two_files_items) -> In t2 (map text two_files_items) ->
       t1 <> t2 -> build2_hash index_of two_files_items t1 <> build2_hash index_of two_files_items t2).
Proof.
  split; [exact index_of_contract|]. split; [vm_compute; reflexivity|].
  apply (build2_hash_perfect index_of index_of_contract two_files two_files_items).
  vm_compute; reflexivity.
Defined.

End Build2Claims.

(** * Further properties of the code *)

Module BuildFacts.
Import ReadFacts.

Lemma items_for_code_snoc c items x :
  items_for_code c (items ++ [x]) =
  if String.eqb (code x) c
  then Some (match items_for_code c items with None => [] | Some l => l end ++ [x])
  else items_for_code c items.
Proof.
  unfold items_for_code. rewrite filter_app. simpl.
  destruct (String.eqb (code x) c).
  - destruct (filter _ items) as [|y l]; reflexivity.
  - rewrite app_nil_r. reflexivity.
Qed.

Lemma build_fold items c :
  map_get c (fold_left build_update items []) = items_for_code c items.
Proof.
  induction items as [|x items IH] using rev_ind; [reflexivity|].
  rewrite fold_left_app. simpl. unfold build_update at 1.
  rewrite items_for_code_snoc.
  destruct (map_get (code x) (fold_left build_update items [])) as [l|] eqn:Hl;
    rewrite map_get_insert; destruct (String.eqb (code x) c) eqn:Ec; try exact IH;
    apply String.eqb_eq in Ec; subst c; rewrite <- IH, Hl; reflexivity.
Qed.

Lemma build_read inputs :
  build inputs =
  match read_all inputs with
  | Ok items => Ok (fold_left build_update items [])
  | Err e => Err e
  end.
Proof. unfold build. apply for_files_total. Qed.

End BuildFacts.

Module Extras.
Import ShapeSearchFacts ReadFacts Build2Facts Build2Loop BuildFacts.

(** [build] fails exactly when reading the files fails, with the same
    error; otherwise its trie maps each code to the whole items with that
    code, in input order, duplicates kept, and has no entry for other codes. *)
Theorem build_index_by_code (inputs : list csv_file) :
  match build inputs, read_all inputs with
  | Ok idx, Ok items => forall c, map_get c idx = items_for_code c items
  | Err e, Err e' => e = e'
  | _, _ => False
  end.
Proof.
  rewrite build_read. destruct (read_all inputs) as [items|e]; [|reflexivity].
  intro c. apply build_fold.
Qed.




Lemma nodup_map_inj {A B} (h : A -> B) (l : list A) :
  NoDup l -> (forall a b, In a l -> In b l -> h a = h b -> a = b) -> NoDup (map h l).
Proof.
  intros Hnd Hinj. induction Hnd as [|x l Hx Hnd IH]; simpl; constructor.
  - intro Hin. apply in_map_iff in Hin as [y [Hy Hin]].
    assert (y = x) by (apply Hinj; simpl; auto). subst; contradiction.
  - apply IH. intros a b Ha Hb. apply Hinj; simpl; auto.
Qed.

(** With [Mphf::new] meeting its contract, [build2] writes every slot of
    its definition array, each exactly once: no slot keeps the placeholder
    [(0, None)] it was created with. *)
Theorem build2_every_slot_written_once (mphf_new : list string -> string -> nat)
    (Hm : mphf_contract mphf_new) (inputs : list csv_file) (items : list DictItem)
    (Hread : read_all inputs = Ok items) :
  exists st, build2 mphf_new inputs = Returns (Ok st) /\
    length (b2_writes st) = length (b2_def st) /\
    forall j, j < length (b2_def st) -> count_occ Nat.eq_dec (b2_writes st) j = 1.
Proof.
  destruct (Build2Claims.build2_run mphf_new Hm inputs items Hread)
    as [st [Hb [Hvis [Hnd [Hw [Hlen _]]]]]].
  destruct (Hm _ (unique_nodup (map text items))) as [Hlt Hinj].
  assert (Hperm : Permutation (b2_visited st) (unique (map text items))).
  { apply NoDup_Permutation; [exact Hnd|apply unique_nodup|].
    intro t. rewrite Hvis, unique_in. reflexivity. }
  assert (Hvu : forall t, In t (b2_visited st) -> In t (unique (map text items)))
    by (intros t Ht; apply (Permutation_in _ Hperm); exact Ht).
  assert (Hwl : length (b2_writes st) = length (b2_def st)).
  { rewrite Hw, length_map, Hlen. apply Permutation_length; exact Hperm. }
  assert (Hwnd : NoDup (b2_writes st)).
  { rewrite Hw. apply nodup_map_inj; [exact Hnd|].
    intros a b Ha Hb'. apply Hinj; apply Hvu; assumption. }
  assert (Hincl : incl (seq 0 (length (b2_def st))) (b2_writes st)).
  { apply NoDup_length_incl; [exact Hwnd| rewrite length_seq, Hwl; reflexivity|].
    intros j Hj. rewrite Hw in Hj. apply in_map_iff in Hj as [t [<- Ht]].
    apply in_seq. split; [lia|]. rewrite Hlen. simpl.
    apply Hlt, Hvu; exact Ht. }
  exists st. split; [exact Hb|]. split; [exact Hwl|].
  intros j Hj. apply (proj1 (NoDup_count_occ' Nat.eq_dec _) Hwnd).
  apply Hincl, in_seq. lia.
Qed.

Lemma build2_every_slot_written_once_witness :
  mphf_contract index_of /\ read_all two_files = Ok two_files_items /\
  exists st, build2 index_of two_files = Returns (Ok st) /\
    length (b2_writes st) = length (b2_def st) /\
    forall j, j < length (b2_def st) -> count_occ Nat.eq_dec (b2_writes st) j = 1.
Proof.
  split; [exact index_of_contract|]. split; [vm_compute; reflexivity|].
  apply (build2_every_slot_written_once index_of index_of_contract two_files two_files_items).
  vm_compute; reflexivity.
Defined.

Lemma list_set_app {E} (pre post : list E) (x y : E) :
  EngineManager.list_set (pre ++ x :: post) (length pre) y = pre ++ y :: post.
Proof.
  induction pre as [|z pre IH]; simpl; [reflexivity|]. rewrite IH. reflexivity.
Qed.

(** [set_active_engine] only reorders: when it returns, the manager holds
    the same engines as before, none lost or duplicated. *)
Theorem set_active_engine_permutes {E} (es es' : list E) (k : nat)
    (Hret : EngineManager.set_active_engine es k = Returns es') :
  Permutation es es'.
Proof.
  unfold EngineManager.set_active_engine, EngineManager.vecdeque_swap in Hret.
  destruct es as [|a rest]; [discriminate|].
  destruct k as [|k].
  - simpl in Hret. inversion Hret; subst. reflexivity.
  - simpl in Hret. destruct (nth_error rest k) as [b|] eqn:Hb; [|discriminate].
    inversion Hret; subst es'. clear Hret.
    destruct (nth_error_split rest k Hb) as [pre [post [-> <-]]].
    rewrite list_set_app.
    apply perm_trans with (pre ++ a :: b :: post); [apply Permutation_middle|].
    apply perm_trans with (pre ++ b :: a :: post);
      [apply Permutation_app_head; apply perm_swap|].
    apply Permutation_sym, Permutation_middle.
Qed.

Lemma set_active_engine_permutes_witness :
  EngineManager.set_active_engine [10; 11; 12] 2 = Returns [12; 11; 10] /\
  Permutation [10; 11; 12] [12; 11; 10].
Proof.
  split; [reflexivity|]. apply (set_active_engine_permutes [10; 11; 12] [12; 11; 10] 2).
  reflexivity.
Defined.

(** The empty query matches every row ([LIKE '%']): the relational search
    returns each distinct text of the table exactly once. *)
Theorem shape_search_empty_query (rep : sql_row -> list sql_row -> sql_row)
    (Hrep : forall r rs, In (rep r rs) (r :: rs)) (rows : list sql_row) :
  exists res, shape_search rep (Some rows) EmptyString = Ok res /\
    Permutation (map it_text res) (unique (map r_text rows)).
Proof.
  assert (Hall : filter (fun r => like_match (String.append EmptyString "%") (r_code r)) rows = rows).
  { apply forallb_filter_id. apply forallb_forall. intros r _. apply like_percent. }
  eexists. split; [reflexivity|].
  rewrite Hall. rewrite <- (group_texts rep Hrep rows).
  rewrite <- map_map with (f := item_of_row) (g := it_text).
  apply Permutation_map. apply sort_desc_perm.
Qed.

Lemma shape_search_empty_query_witness :
  (forall r rs, In (sqlite_first_row r rs) (r :: rs)) /\
  exists res, shape_search sqlite_first_row
      (Some [mkRow "x" "ab" 3 None; mkRow "y" "cd" 7 None; mkRow "x" "ef" 9 None]) EmptyString
      = Ok res /\
    Permutation (map it_text res)
      (unique (map r_text [mkRow "x" "ab" 3 None; mkRow "y" "cd" 7 None; mkRow "x" "ef" 9 None])).
Proof.
  split; [exact first_in|].
  exact (shape_search_empty_query sqlite_first_row first_in
           [mkRow "x" "ab" 3 None; mkRow "y" "cd" 7 None; mkRow "x" "ef" 9 None]).
Defined.

(** [compile] on a database without the [dict] table: it succeeds only
    when the files hold no row at all; when every file reads and there is a
    row, it fails with the SQLite error of its first insert. *)
Theorem compile_without_table (inputs : list csv_file) :
  (fst (compile inputs None) = Ok tt <-> read_all inputs = Ok []) /\
  (forall it items, read_all inputs = Ok (it :: items) ->
     compile inputs None = (Err SqliteError, None)) /\
  snd (compile inputs None) = None.
Proof.
  assert (Hgen : forall files,
    (forall p, for_files insert_row None files = Ok p <-> p = None /\ read_all files = Ok []) /\
    (forall it items, read_all files = Ok (it :: items) ->
       for_files insert_row None files = Err SqliteError)).
  { induction files as [|[|ls] files IH].
    - split; [intro p; simpl; split; [intro H; inversion H; auto|intros [-> _]; reflexivity]|].
      intros it items H. discriminate H.
    - split; [intro p; simpl; split; [discriminate|intros [_ H]; discriminate H]|].
      intros it items H. discriminate H.
    - destruct IH as [IH1 IH2]. rewrite read_all_cons. simpl.
      unfold collect. destruct (rdr_deserialize ls) as [|[it|e] rows]; simpl.
      + split.
        * intro p. rewrite IH1. destruct (read_all files); [reflexivity|].
          split; intros [_ H]; discriminate H.
        * intros it items H. apply (IH2 it items). destruct (read_all files); congruence.
      + rewrite (for_rows_append rows [it]). fold (collect rows).
        split.
        * intro p. split; [discriminate|intros [_ H]].
          destruct (collect rows); [|discriminate H].
          destruct (read_all files); discriminate H.
        * intros; reflexivity.
      + split; [intro p; split; [discriminate|intros [_ H]; discriminate H]|].
        intros it items H; discriminate H. }
  destruct (Hgen inputs) as [H1 H2]. unfold compile.
  split; [|split].
  - destruct (for_files insert_row None inputs) as [p|e] eqn:Hf; simpl.
    + split; [intros _; apply (proj1 (H1 p) eq_refl)|reflexivity].
    + split; [discriminate|]. intro Hr.
      pose proof (proj2 (H1 None) (conj eq_refl Hr)). discriminate.
  - intros it items Hr. rewrite (H2 it items Hr). reflexivity.
  - destruct (for_files insert_row None inputs); reflexivity.
Qed.










Lemma plain_field_cons c s :
  plain_field (String c s) = true ->
  Ascii.eqb c tab = false /\ plain_field s = true.
Proof.
  unfold plain_field. simpl.
  destruct (Ascii.eqb c tab); simpl; [discriminate|].
  intro H. apply negb_true_iff, orb_false_iff in H as [_ H].
  split; [reflexivity|]. rewrite H. reflexivity.
Qed.

Lemma split_on_plain a :
  plain_field a = true -> split_on tab a = [a].
Proof.
  induction a as [|c a IH]; intro H; [reflexivity|].
  apply plain_field_cons in H as [Hc H]. simpl. rewrite Hc, IH by exact H. reflexivity.
Qed.

Lemma split_on_plain_app a b :
  plain_field a = true -> split_on tab (a ++ String tab b) = a :: split_on tab b.
Proof.
  induction a as [|c a IH]; intro H; [reflexivity|].
  apply plain_field_cons in H as [Hc H]. simpl. rewrite Hc, IH by exact H. reflexivity.
Qed.

Lemma split_tab_line a fs :
  plain_field a = true -> Forall (fun f => plain_field f = true) fs ->
  split_on tab (tab_line (a :: fs)) = a :: fs.
Proof.
  revert a. induction fs as [|b fs IH]; intros a Ha Hfs.
  - apply split_on_plain; exact Ha.
  - inversion Hfs; subst. unfold tab_line. simpl String.concat.
    rewrite split_on_plain_app by exact Ha. f_equal. apply IH; assumption.
Qed.

Lemma digit_char_facts d : (d < 10)%N ->
  digit_value (digit_char d) = Some d /\ Ascii.eqb (digit_char d) "+"%char = false /\
  plain_field (String (digit_char d) EmptyString) = true.
Proof.
  intro H. assert (d = 0 \/ d = 1 \/ d = 2 \/ d = 3 \/ d = 4 \/ d = 5 \/ d = 6 \/
                   d = 7 \/ d = 8 \/ d = 9)%N as Hd by lia.
  repeat destruct Hd as [->|Hd]; [..|subst d]; vm_compute; auto.
Qed.

Lemma decimal_aux_parse f n s a : (n < 10 ^ N.of_nat f)%N ->
  exists k, parse_digits a (decimal_aux f n s) = parse_digits (a * 10 ^ k + n)%N s.
Proof.
  revert n s a. induction f as [|f IH]; intros n s a Hn.
  - exists 0%N. change (10 ^ N.of_nat 0)%N with 1%N in Hn.
    assert (n = 0%N) as -> by lia.
    cbn [decimal_aux]. rewrite N.pow_0_r, N.mul_1_r, N.add_0_r. reflexivity.
  - cbn [decimal_aux].
    destruct (digit_char_facts (n mod 10)%N ltac:(apply N.mod_lt; discriminate)) as [Hv _].
    destruct (N.ltb_spec n 10) as [Hlt|Hge].
    + exists 1%N. cbn [parse_digits]. rewrite Hv, N.mod_small by exact Hlt.
      rewrite N.pow_1_r. reflexivity.
    + destruct (IH (n / 10)%N (String (digit_char (n mod 10)) s) a) as [k Hk].
      { rewrite Nnat.Nat2N.inj_succ, N.pow_succ_r' in Hn.
        apply N.Div0.div_lt_upper_bound. exact Hn. }
      exists (N.succ k). rewrite Hk. cbn [parse_digits]. rewrite Hv. f_equal.
      rewrite N.pow_succ_r'.
      pose proof (N.div_mod n 10 ltac:(discriminate)) as Hdm.
      rewrite Hdm at 3. ring.
Qed.


Lemma decimal_aux_chars f n s :
  forall c, In c (list_ascii_of_string (decimal_aux f n s)) ->
  In c (list_ascii_of_string s) \/ exists d, (d < 10)%N /\ c = digit_char d.
Proof.
  revert n s. induction f as [|f IH]; intros n s c Hc; [left; exact Hc|].
  simpl in Hc.
  assert (Hd : (n mod 10 < 10)%N) by (apply N.mod_lt; lia).
  destruct (n <? 10)%N.
  - destruct Hc as [<-|Hc]; [right; eauto|left; exact Hc].
  - destruct (IH _ _ c Hc) as [[<-|Hc']|Hc']; [right; eauto|left; exact Hc'|right; exact Hc'].
Qed.

Lemma plain_field_chars s :
  (forall c, In c (list_ascii_of_string s) -> plain_field (String c EmptyString) = true) ->
  plain_field s = true.
Proof.
  induction s as [|c s IH]; intro H; [reflexivity|].
  pose proof (H c (or_introl eq_refl)) as Hc. unfold plain_field in Hc |- *. simpl in Hc |- *.
  rewrite orb_false_r in Hc. apply negb_true_iff in Hc. rewrite Hc. simpl.
  apply IH. intros c' Hc'. apply H. right; exact Hc'.
Qed.

Lemma decimal_aux_nonempty f n c s : decimal_aux f n (String c s) <> EmptyString.
Proof.
  revert n c s. induction f as [|f IH]; intros n c s; cbn [decimal_aux]; [discriminate|].
  destruct (n <? 10)%N; [discriminate|apply IH].
Qed.

Lemma decimal_aux_succ_nonempty f n s : decimal_aux (S f) n s <> EmptyString.
Proof.
  intro H. cbn [decimal_aux] in H.
  destruct (n <? 10)%N; [discriminate|exact (decimal_aux_nonempty _ _ _ _ H)].
Qed.

Lemma decimal_facts n : (n < 2 ^ 32)%N ->
  parse_u32 (decimal n) = Some n /\ plain_field (decimal n) = true.
Proof.
  intro Hn.
  assert (Hch : forall c, In c (list_ascii_of_string (decimal n)) ->
                 exists d, (d < 10)%N /\ c = digit_char d).
  { intros c Hc. destruct (decimal_aux_chars 10 n EmptyString c Hc) as [[]|H]; exact H. }
  split.
  - destruct (decimal_aux_parse 10 n EmptyString 0 ltac:(simpl; lia)) as [k Hk].
    change (decimal_aux 10 n EmptyString) with (decimal n) in Hk.
    rewrite N.mul_0_l, N.add_0_l in Hk. unfold parse_u32.
    destruct (decimal n) as [|c r] eqn:Hdec.
    + destruct (decimal_aux_succ_nonempty 9 n EmptyString Hdec).
    + destruct (Hch c (or_introl eq_refl)) as [d [Hd ->]].
      destruct (digit_char_facts d Hd) as [_ [-> _]].
      rewrite Hk. cbn [parse_digits].
      apply N.ltb_lt in Hn. rewrite Hn. reflexivity.
  - apply plain_field_chars. intros c Hc. destruct (Hch c Hc) as [d [Hd ->]].
    apply (digit_char_facts d Hd).
Qed.

(** Writing an item as a dictionary line and reading it back with the
    reader the compile paths use gives the item again, unless its text
    starts with [#]: that line is read as a comment and the item is
    silently lost.  The fields must hold no tab, quote or line break, the
    weight must fit in a [u32] and a comment must not be empty. *)
Theorem item_line_round_trip (it : DictItem)
    (Htext : plain_field (text it) = true) (Hcode : plain_field (code it) = true)
    (Hcomment : match comment it with
                | Some c => plain_field c = true /\ c <> EmptyString
                | None => True end)
    (Hweight : (weight it < 2 ^ 32)%N) :
  rdr_deserialize [dict_header; item_line it] =
  if is_comment_line (text it) then [] else [Ok it].
Proof.
  destruct it as [t c w cm]; cbn [text code weight comment] in *.
  destruct (decimal_facts w Hweight) as [Hparse Hw].
  unfold item_line. cbn [text code weight comment].
  generalize dependent (decimal w). intros dw Hparse Hw.
  set (cs := match cm with Some x => x | None => EmptyString end).
  assert (Hcs : plain_field cs = true)
    by (unfold cs; destruct cm as [x|]; [apply Hcomment|reflexivity]).
  assert (Hline : is_comment_line (tab_line [t; c; dw; cs]) = is_comment_line t /\
                  is_empty_line (tab_line [t; c; dw; cs]) = false).
  { unfold tab_line. simpl. destruct t; split; reflexivity. }
  assert (Hhc : negb (is_comment_line dict_header) && negb (is_empty_line dict_header) = true)
    by reflexivity.
  assert (Hh : split_on tab dict_header = ["text"; "code"; "weight"; "comment"]%string)
    by reflexivity.
  unfold rdr_deserialize. cbn [filter]. rewrite Hhc.
  destruct Hline as [-> ->].
  destruct (is_comment_line t); [reflexivity|]. cbn [negb andb filter map].
  rewrite Hh, split_tab_line by (repeat constructor; assumption).
  unfold deserialize_item. simpl. rewrite Hparse.
  destruct cm as [x|]; [|reflexivity].
  destruct Hcomment as [_ Hx]. unfold cs. destruct x; [congruence|reflexivity].
Qed.

Lemma item_line_round_trip_witness :
  rdr_deserialize [dict_header; item_line (mkDictItem "x" "ab" 4294967295 (Some "n"%string))] =
  [Ok (mkDictItem "x" "ab" 4294967295 (Some "n"%string))] /\
  rdr_deserialize [dict_header; item_line (mkDictItem "#x" "ab" 3 None)] = [].
Proof.
  split.
  - rewrite (item_line_round_trip (mkDictItem "x" "ab" 4294967295 (Some "n"%string))).
    + reflexivity.
    + reflexivity.
    + reflexivity.
    + split; [reflexivity|discriminate].
    + cbn [weight]. reflexivity.
  - rewrite (item_line_round_trip (mkDictItem "#x" "ab" 3 None)); reflexivity.
Defined.

Lemma set_nth_ge {A} (l : list A) i x : length l <= i -> set_nth l i x = None.
Proof.
  revert i; induction l as [|y l IH]; intros i Hi; [reflexivity|].
  destruct i as [|i]; simpl in Hi; [lia|]. simpl. rewrite IH by lia. reflexivity.
Qed.

Lemma build2_loop_panics hash n items : forall st,
  length (b2_def st) = n -> (forall t, In t (b2_visited st) -> hash t < n) ->
  build2_loop hash st items = Panics <->
  exists it, In it items /\ ~ In (text it) (b2_visited st) /\ n <= hash (text it).
Proof.
  induction items as [|it items IH]; intros st Hlen Hvis; simpl.
  - split; [discriminate|intros [it [[] _]]].
  - unfold build2_step.
    destruct (existsb (String.eqb (text it)) (b2_visited st)) eqn:Hex.
    + rewrite IH by assumption. simpl.
      apply existsb_exists in Hex as [t [Ht Heq]]. apply String.eqb_eq in Heq; subst t.
      split.
      * intros [it' [H1 H2]]. exists it'. auto.
      * intros [it' [[<-|H1] H2]]; [tauto|]. exists it'. auto.
    + assert (Hnv : ~ In (text it) (b2_visited st)).
      { intro Hin. assert (Hc : existsb (String.eqb (text it)) (b2_visited st) = true)
          by (apply existsb_exists; exists (text it); split; [exact Hin|apply String.eqb_refl]).
        congruence. }
      destruct (Nat.lt_ge_cases (hash (text it)) n) as [Hlt|Hge].
      * rewrite <- Hlen in Hlt.
        destruct (set_nth_lt (b2_def st) (hash (text it)) (weight it, comment it) Hlt)
          as [d [Hd [Hdl _]]].
        rewrite Hd. rewrite IH; simpl.
        -- split.
           ++ intros [it' [H1 [H2 H3]]]. exists it'. split; [right; exact H1|].
              split; [intro; apply H2; right; assumption|exact H3].
           ++ intros [it' [[<-|H1] [H2 H3]]]; [lia|].
              exists it'. split; [exact H1|]. split; [|exact H3].
              intros [H|H]; [rewrite <- H in H3; lia|contradiction].
        -- lia.
        -- intros t [<-|Ht]; [lia|apply Hvis; exact Ht].
      * rewrite set_nth_ge by lia. split; [intros _|reflexivity].
        exists it. split; [left; reflexivity|]. split; assumption.
Qed.

(** [build2] panics, on the [def_table[index] = ...] assignment, exactly
    when the files are read and the perfect hash built over the distinct
    texts sends one of those texts outside the definition array; it
    never panics otherwise, whatever the hash does on other strings. *)
Theorem build2_panics_iff (mphf_new : list string -> string -> nat)
    (inputs : list csv_file) :
  build2 mphf_new inputs = Panics <->
  exists items, read_all inputs = Ok items /\
    exists t, In t (map text items) /\
      length (unique (map text items)) <= mphf_new (unique (map text items)) t.
Proof.
  unfold build2. destruct (read_all inputs) as [items|e].
  - unfold build2_items.
    set (u := unique (map text items)).
    assert (Hp := build2_loop_panics (mphf_new u) (length u) items (build2_init u)
                    (repeat_length _ _) (fun t H => match H with end)).
    transitivity (build2_loop (mphf_new u) (build2_init u) items = Panics).
    { destruct (build2_loop _ _ items); split; congruence. }
    rewrite Hp. split.
    + intros [it [Hit [_ Hge]]].
      exists items. split; [reflexivity|]. exists (text it). split; [apply in_map; exact Hit|exact Hge].
    + intros [items' [Heq [t [Ht Hge]]]]. inversion Heq; subst items'.
      apply in_map_iff in Ht as [it [<- Hit]]. exists it. simpl. auto.
  - split; [discriminate|]. intros [items [Heq _]]; discriminate.
Qed.

End Extras.
